(** * Connect Four: the game engine of [src/components/ConnectFour.tsx]

    Shallow embedding of the logical core of the React component: the
    [GameState] record, [checkWinner], [dropPiece] and [resetGame].
    JavaScript values are modelled as follows:
    - a JS number used as an index is a [Z];
    - reading [a[i]] yields [undefined] out of range; an exception raised
      by the JS code (reading [undefined[c]]) is [None] of the option monad
      [M] below;
    - the React state setter [setGameState] is modelled by returning the new
      state; an early [return] without calling it returns the old state.
    The drop animation ([setDropAnimation], [setTimeout]) only feeds the
    rendering and is not part of the engine state. *)

From Stdlib Require Import ZArith List Bool Lia.
Import ListNotations.
Open Scope Z_scope.

(** ** Data model *)

Inductive Player := P1 | P2.

(** [type Cell = Player | null] *)
Definition Cell := option Player.
(** [type Board = Cell[][]] *)
Definition Board := list (list Cell).

Definition ROWS : Z := 6.
Definition COLS : Z := 7.

Record GameState := mkGameState {
  board : Board;
  currentPlayer : Player;
  winner : option Player;
  winningCells : list (Z * Z);
  gameOver : bool
}.

Definition player_eqb (p q : Player) : bool :=
  match p, q with
  | P1, P1 | P2, P2 => true
  | _, _ => false
  end.

(** The value of an array read [a[i]]. *)
Inductive jsval := Undefined | Null | Piece (p : Player).

(** Strict equality [v === w] on the values a board read can produce. *)
Definition jsval_eqb (v w : jsval) : bool :=
  match v, w with
  | Undefined, Undefined | Null, Null => true
  | Piece p, Piece q => player_eqb p q
  | _, _ => false
  end.

(** Exceptions: [None] is a thrown [TypeError]. *)
Definition M (A : Type) := option A.
Notation "x <- m ;; k" :=
  (match m with Some x => k | None => None end)
  (at level 61, m at next level, right associativity).

(** [a[i]] on an array: [None] stands for [undefined]. *)
Definition at_ {A} (l : list A) (i : Z) : option A :=
  if i <? 0 then None else nth_error l (Z.to_nat i).

Definition read (row : list Cell) (c : Z) : jsval :=
  match at_ row c with
  | None => Undefined
  | Some None => Null
  | Some (Some p) => Piece p
  end.

(** [board[r][c]]: throws when [board[r]] is [undefined]. *)
Definition get (b : Board) (r c : Z) : M jsval :=
  match at_ b r with
  | None => None
  | Some row => Some (read row c)
  end.

(** [a[n] = f(a[n])] for an index [n] inside the array (the only writes the
    component performs are at a cell it has just read as [null]). *)
Fixpoint modify_nth {A} (n : nat) (f : A -> A) (l : list A) : list A :=
  match l, n with
  | [], _ => []
  | x :: l', O => f x :: l'
  | x :: l', S n' => x :: modify_nth n' f l'
  end.

(** [newBoard[row][col] = v] *)
Definition set_cell (b : Board) (r c : Z) (v : Cell) : Board :=
  modify_nth (Z.to_nat r) (modify_nth (Z.to_nat c) (fun _ => v)) b.

(** ** [checkWinner] *)

(** [[0,1]] horizontal, [[1,0]] vertical, [[1,1]] diagonal /,
    [[1,-1]] diagonal \ (the names are those of the source comments). *)
Definition directions : list (Z * Z) := [(0, 1); (1, 0); (1, 1); (1, -1)].

(** The guard [newRow >= 0 && newRow < ROWS && newCol >= 0 && newCol < COLS
    && board[newRow][newCol] === player], evaluated left to right. *)
Definition step_ok (board : Board) (player : Player) (newRow newCol : Z)
  : M bool :=
  if (newRow >=? 0) && (newRow <? ROWS) && (newCol >=? 0) && (newCol <? COLS)
  then v <- get board newRow newCol ;; Some (jsval_eqb v (Piece player))
  else Some false.

(** [for (let i = 1; i < 4; i++) { ... cells.push([newRow, newCol]) ... }] *)
Fixpoint pos_loop (board : Board) (row col : Z) (player : Player) (dx dy : Z)
    (fuel : nat) (i : Z) (cells : list (Z * Z)) : M (list (Z * Z)) :=
  match fuel with
  | O => Some cells
  | S f =>
      if i <? 4 then
        let newRow := row + dx * i in
        let newCol := col + dy * i in
        ok <- step_ok board player newRow newCol ;;
        if ok then pos_loop board row col player dx dy f (i + 1)
                     (cells ++ [(newRow, newCol)])
        else Some cells
      else Some cells
  end.

(** [for (let i = 1; i < 4; i++) { ... cells.unshift([newRow, newCol]) ... }] *)
Fixpoint neg_loop (board : Board) (row col : Z) (player : Player) (dx dy : Z)
    (fuel : nat) (i : Z) (cells : list (Z * Z)) : M (list (Z * Z)) :=
  match fuel with
  | O => Some cells
  | S f =>
      if i <? 4 then
        let newRow := row - dx * i in
        let newCol := col - dy * i in
        ok <- step_ok board player newRow newCol ;;
        if ok then neg_loop board row col player dx dy f (i + 1)
                     ((newRow, newCol) :: cells)
        else Some cells
      else Some cells
  end.

(** [for (const [dx, dy] of directions) { ... }  return [];] *)
Fixpoint check_dirs (board : Board) (row col : Z) (player : Player)
    (ds : list (Z * Z)) : M (list (Z * Z)) :=
  match ds with
  | [] => Some []
  | (dx, dy) :: ds' =>
      cells <- pos_loop board row col player dx dy 3 1 [(row, col)] ;;
      cells <- neg_loop board row col player dx dy 3 1 cells ;;
      if (4 <=? length cells)%nat then Some (firstn 4 cells)
      else check_dirs board row col player ds'
  end.

Definition checkWinner (board : Board) (row col : Z) (player : Player)
  : M (list (Z * Z)) :=
  check_dirs board row col player directions.

(** ** [dropPiece] and [resetGame] *)

Definition other (p : Player) : Player :=
  if player_eqb p P1 then P2 else P1.

Definition cell_filled (c : Cell) : bool :=
  match c with None => false | Some _ => true end.

(** The body of the [if (newBoard[row][col] === null)] branch once the piece
    is written: win check, draw check and [setGameState]. *)
Definition commit (gs : GameState) (newBoard : Board) (row col : Z)
  : M GameState :=
  let p := currentPlayer gs in
  winningCells <- checkWinner newBoard row col p ;;
  let hasWinner := (0 <? length winningCells)%nat in
  let isDraw := negb hasWinner
                && forallb (fun r => forallb cell_filled r) newBoard in
  Some (mkGameState newBoard
          (if hasWinner || isDraw then p else other p)
          (if hasWinner then Some p else None)
          winningCells
          (hasWinner || isDraw)).

(** [for (let row = ROWS - 1; row >= 0; row--) { ... }] *)
Fixpoint scan (gs : GameState) (newBoard : Board) (col : Z) (fuel : nat)
    (row : Z) : M GameState :=
  match fuel with
  | O => Some gs
  | S f =>
      if row >=? 0 then
        v <- get newBoard row col ;;
        if jsval_eqb v Null then
          commit gs (set_cell newBoard row col (Some (currentPlayer gs))) row col
        else scan gs newBoard col f (row - 1)
      else Some gs
  end.

(** [const newBoard = gameState.board.map(row => [...row])] is a fresh copy,
    so the model reads and writes the board value directly. *)
Definition dropPiece (gs : GameState) (col : Z) : M GameState :=
  if gameOver gs then Some gs
  else scan gs (board gs) col (Z.to_nat ROWS) (ROWS - 1).

Definition empty_board : Board :=
  repeat (repeat None (Z.to_nat COLS)) (Z.to_nat ROWS).

Definition initial_state : GameState :=
  mkGameState empty_board P1 None [] false.

Definition resetGame (_ : GameState) : GameState := initial_state.

(** States the component can be in: the [useState] initialiser, then any
    sequence of clicks on a column button (any number reaches [dropPiece])
    and of the New Game button. *)
Inductive reachable : GameState -> Prop :=
| reach_init : reachable initial_state
| reach_drop : forall gs col gs',
    reachable gs -> dropPiece gs col = Some gs' -> reachable gs'
| reach_reset : forall gs, reachable gs -> reachable (resetGame gs).

(** Well-formed boards: [ROWS] rows of [COLS] cells. *)
Definition wf_board (b : Board) : Prop :=
  length b = Z.to_nat ROWS /\ Forall (fun r => length r = Z.to_nat COLS) b.

(** ** The win detection as the spec describes it

    A second formulation of [checkWinner], written from the spec's
    description of the algorithm, to be compared with the embedding of
    the source: per axis, the run of the mover's cells through the played
    cell, at most 3 cells on each side, negative side first in spatial
    order; the first axis in the order horizontal, vertical, "/", "\"
    whose run has length >= 4 wins, with the first 4 cells of the run. *)

Definition in_bounds (r c : Z) : bool :=
  (0 <=? r) && (r <? ROWS) && (0 <=? c) && (c <? COLS).

(** The content of cell [(r, c)], empty when there is no such cell. *)
Definition occupant (b : Board) (r c : Z) : Cell :=
  match at_ b r with
  | Some row => match at_ row c with Some x => x | None => None end
  | None => None
  end.

Definition owned_by (b : Board) (p : Player) (r c : Z) : bool :=
  in_bounds r c
  && match occupant b r c with Some q => player_eqb q p | None => false end.

(** Number of consecutive offsets [i, i+1, ...] (at most [fuel]) that pass
    [ok]. *)
Fixpoint walk (ok : Z -> bool) (fuel : nat) (i : Z) : nat :=
  match fuel with
  | O => O
  | S f => if ok i then S (walk ok f (i + 1)) else O
  end.

(** [i; i+1; ...; i+n-1] *)
Fixpoint zseq_from (i : Z) (n : nat) : list Z :=
  match n with
  | O => []
  | S n' => i :: zseq_from (i + 1) n'
  end.

Definition axis_run (b : Board) (r c : Z) (p : Player) (d : Z * Z)
  : list (Z * Z) :=
  let '(dx, dy) := d in
  let n := walk (fun i => owned_by b p (r - dx * i) (c - dy * i)) 3 1 in
  let m := walk (fun i => owned_by b p (r + dx * i) (c + dy * i)) 3 1 in
  map (fun i => (r - dx * i, c - dy * i)) (rev (zseq_from 1 n))
  ++ [(r, c)]
  ++ map (fun i => (r + dx * i, c + dy * i)) (zseq_from 1 m).

Definition axis_horizontal : Z * Z := (0, 1).
Definition axis_vertical : Z * Z := (1, 0).
Definition axis_diag_slash : Z * Z := (1, 1).
Definition axis_diag_backslash : Z * Z := (1, -1).

Definition winning_run_spec (b : Board) (r c : Z) (p : Player)
  : list (Z * Z) :=
  match find (fun d => 4 <=? length (axis_run b r c p d))%nat
             [axis_horizontal; axis_vertical; axis_diag_slash;
              axis_diag_backslash] with
  | Some d => firstn 4 (axis_run b r c p d)
  | None => []
  end.

Definition jsval_of_cell (v : Cell) : jsval :=
  match v with None => Null | Some p => Piece p end.

(** No empty cell anywhere on the board. *)
Definition board_full (b : Board) : Prop :=
  Forall (Forall (fun x => x <> None)) b.

(** [cells] are 4 cells of the board, all holding [p], collinear and
    contiguous with unit spacing along one of the four axes. *)
Definition winning_line (b : Board) (p : Player) (cells : list (Z * Z))
  : Prop :=
  exists (r0 c0 dx dy : Z),
    In (dx, dy) [(0, 1); (1, 0); (1, 1); (1, -1)] /\
    cells = [(r0, c0); (r0 + dx, c0 + dy); (r0 + 2 * dx, c0 + 2 * dy);
             (r0 + 3 * dx, c0 + 3 * dy)] /\
    Forall (fun '(i, j) => in_bounds i j = true /\ occupant b i j = Some p)
      cells.

(** No floating pieces: below an occupied cell every cell is occupied. *)
Definition gravity (b : Board) : Prop :=
  forall r r' c, 0 <= r -> r < r' < ROWS ->
    occupant b r c <> None -> occupant b r' c <> None.

(** The invariant of the states the component can be in. *)
Definition engine_inv (gs : GameState) : Prop :=
  wf_board (board gs) /\ gravity (board gs) /\
  (winner gs <> None <-> winningCells gs <> []) /\
  (winningCells gs <> [] ->
   gameOver gs = true /\
   exists p, winner gs = Some p /\ winning_line (board gs) p (winningCells gs)).

(** ** Rendering helpers of the component *)

(** [isWinningCell]:
    [gameState.winningCells.some(([r, c]) => r === row && c === col)] *)
Definition isWinningCell (gs : GameState) (row col : Z) : bool :=
  existsb (fun '(r, c) => (r =? row) && (c =? col)) (winningCells gs).

(** [canDropInColumn]:
    [!gameState.gameOver && gameState.board[0][col] === null]; the read of
    [board[0]] happens only when the game is not over. *)
Definition canDropInColumn (gs : GameState) (col : Z) : M bool :=
  if negb (gameOver gs) then
    v <- get (board gs) 0 col ;; Some (jsval_eqb v Null)
  else Some false.

(** The status line of the JSX:
    [gameState.winner ? <wins> : gameState.gameOver ? <draw> : <turn>]. *)
Inductive Status := Wins (p : Player) | Draw | Turn (p : Player).

Definition status (gs : GameState) : Status :=
  match winner gs with
  | Some p => Wins p
  | None => if gameOver gs then Draw else Turn (currentPlayer gs)
  end.

(** Number of pieces of [p] on a row and on a board. *)
Definition count_row (p : Player) (row : list Cell) : nat :=
  length (filter (fun x => match x with
                           | Some q => player_eqb q p
                           | None => false
                           end) row).

Definition count_pieces (b : Board) (p : Player) : nat :=
  fold_right (fun row acc => (count_row p row + acc)%nat) 0%nat b.

(** Pieces of player 1 minus pieces of player 2 expected in a state: player
    1 has moved once more than player 2 exactly when player 2 is to move, or
    when player 1 made the last, game-ending move. *)
Definition expected_lead (gs : GameState) : nat :=
  match gameOver gs, currentPlayer gs with
  | false, P1 => 0 | false, P2 => 1
  | true, P1 => 1 | true, P2 => 0
  end.

(** ** Concrete games *)

(** A sequence of column clicks. *)
Fixpoint play (gs : GameState) (cols : list Z) : M GameState :=
  match cols with
  | [] => Some gs
  | c :: cs => gs' <- dropPiece gs c ;; play gs' cs
  end.

Definition after (cols : list Z) : GameState :=
  match play initial_state cols with Some gs => gs | None => initial_state end.

(** Column 0 filled by six alternating pieces. *)
Definition column0_full : GameState := after [0; 0; 0; 0; 0; 0].

(** Player 1 stacks four pieces in column 3 while player 2 plays column 0. *)
Definition vertical_win : GameState := after [3; 0; 3; 0; 3; 0; 3].

Definition row_a : list Cell :=
  [Some P1; Some P1; Some P2; Some P2; Some P1; Some P1; Some P2].
Definition row_b : list Cell :=
  [Some P2; Some P2; Some P1; Some P1; Some P2; Some P2; Some P1].

(** A board with no four in a row, full but for cell (0, 6); player 2 is
    to move. *)
Definition almost_drawn : GameState :=
  mkGameState
    [[Some P1; Some P1; Some P2; Some P2; Some P1; Some P1; None];
     row_b; row_a; row_b; row_a; row_b]
    P2 None [] false.

(** A complete game that fills the board without four in a row. *)
Definition drawn_game : GameState :=
  after [2; 0; 0; 0; 0; 0; 0; 1; 1; 1; 1; 1; 1; 2; 2; 2; 2; 2; 3; 3; 3;
         3; 3; 3; 6; 4; 4; 4; 4; 4; 4; 5; 5; 5; 5; 5; 5; 6; 6; 6; 6; 6].

(** Scenario A: four player-1 pieces in column 3, rows [ROWS-1] up to
    [ROWS-4]. *)
Definition column3_stack : Board :=
  set_cell (set_cell (set_cell (set_cell empty_board (ROWS - 1) 3 (Some P1))
    (ROWS - 2) 3 (Some P1)) (ROWS - 3) 3 (Some P1)) (ROWS - 4) 3 (Some P1).

(** ** Basic facts about board reads *)

Lemma at_nth {A} (l : list A) (i : Z) :
  0 <= i -> at_ l i = nth_error l (Z.to_nat i).
Proof.
  intros H; unfold at_; destruct (Z.ltb_spec i 0); [lia | reflexivity].
Qed.

Lemma at_in_range {A} (l : list A) (i : Z) :
  0 <= i -> i < Z.of_nat (length l) -> exists x, at_ l i = Some x.
Proof.
  intros H1 H2; rewrite at_nth by lia.
  destruct (nth_error l (Z.to_nat i)) eqn:E; [eauto|].
  apply nth_error_None in E; lia.
Qed.

Lemma wf_row (b : Board) (r : Z) (row : list Cell) :
  wf_board b -> at_ b r = Some row -> length row = Z.to_nat COLS.
Proof.
  intros [_ Hrows] Hr; unfold at_ in Hr.
  destruct (r <? 0); [discriminate|].
  apply nth_error_In in Hr.
  rewrite Forall_forall in Hrows; auto.
Qed.

Lemma wf_get (b : Board) (r c : Z) :
  wf_board b -> 0 <= r < ROWS ->
  exists row, at_ b r = Some row /\ get b r c = Some (read row c).
Proof.
  intros Hwf Hr.
  destruct (at_in_range b r) as [row Hrow]; [lia| |].
  - destruct Hwf as [Hlen _]; rewrite Hlen; unfold ROWS in *; lia.
  - exists row; unfold get; rewrite Hrow; auto.
Qed.

Lemma step_ok_wf (b : Board) (p : Player) (r c : Z) :
  wf_board b -> step_ok b p r c = Some (owned_by b p r c).
Proof.
  intros Hwf; unfold step_ok, owned_by, in_bounds.
  destruct (Z.geb_spec r 0), (Z.ltb_spec r ROWS), (Z.geb_spec c 0),
    (Z.ltb_spec c COLS), (Z.leb_spec 0 r), (Z.leb_spec 0 c);
    simpl; try lia; try reflexivity.
  destruct (wf_get b r c Hwf) as [row [Hrow Hget]]; [lia|].
  rewrite Hget; unfold occupant, read; rewrite Hrow.
  destruct (at_ row c) as [[q|]|]; [|reflexivity|reflexivity].
  destruct q, p; reflexivity.
Qed.

(** ** The scan loops of [checkWinner] *)

Section Loops.
Variables (b : Board) (r c : Z) (p : Player) (dx dy : Z).
Hypothesis Hwf : wf_board b.

Lemma pos_loop_walk (fuel : nat) (i : Z) (cells : list (Z * Z)) :
  Z.of_nat fuel + i <= 4 ->
  pos_loop b r c p dx dy fuel i cells =
  Some (cells ++ map (fun k => (r + dx * k, c + dy * k))
          (zseq_from i (walk (fun k => owned_by b p (r + dx * k) (c + dy * k))
                          fuel i))).
Proof.
  revert i cells; induction fuel as [|f IH]; intros i cells Hf; simpl.
  - rewrite app_nil_r; reflexivity.
  - destruct (Z.ltb_spec i 4); [|lia].
    rewrite step_ok_wf by exact Hwf.
    destruct (owned_by b p (r + dx * i) (c + dy * i)); simpl.
    + rewrite IH by lia; rewrite <- app_assoc; reflexivity.
    + rewrite app_nil_r; reflexivity.
Qed.

Lemma neg_loop_walk (fuel : nat) (i : Z) (cells : list (Z * Z)) :
  Z.of_nat fuel + i <= 4 ->
  neg_loop b r c p dx dy fuel i cells =
  Some (rev (map (fun k => (r - dx * k, c - dy * k))
          (zseq_from i (walk (fun k => owned_by b p (r - dx * k) (c - dy * k))
                          fuel i))) ++ cells).
Proof.
  revert i cells; induction fuel as [|f IH]; intros i cells Hf; simpl.
  - reflexivity.
  - destruct (Z.ltb_spec i 4); [|lia].
    rewrite step_ok_wf by exact Hwf.
    destruct (owned_by b p (r - dx * i) (c - dy * i)); simpl.
    + rewrite IH by lia; rewrite <- app_assoc; reflexivity.
    + reflexivity.
Qed.

Lemma axis_loops :
  (cells <- pos_loop b r c p dx dy 3 1 [(r, c)] ;;
   neg_loop b r c p dx dy 3 1 cells) = Some (axis_run b r c p (dx, dy)).
Proof.
  rewrite pos_loop_walk by lia; rewrite neg_loop_walk by lia.
  unfold axis_run; rewrite map_rev; reflexivity.
Qed.

End Loops.

Lemma check_dirs_find (b : Board) (r c : Z) (p : Player) (ds : list (Z * Z)) :
  wf_board b ->
  check_dirs b r c p ds =
  Some (match find (fun d => 4 <=? length (axis_run b r c p d))%nat ds with
        | Some d => firstn 4 (axis_run b r c p d)
        | None => []
        end).
Proof.
  intros Hwf; induction ds as [|[dx dy] ds IH]; [reflexivity|].
  cbn [check_dirs find].
  pose proof (axis_loops b r c p dx dy Hwf) as Hax.
  destruct (pos_loop b r c p dx dy 3 1 [(r, c)]); [|discriminate].
  rewrite Hax.
  destruct (4 <=? length (axis_run b r c p (dx, dy)))%nat; auto.
Qed.

(** ** Board updates *)

Lemma nth_error_modify_nth {A} (n m : nat) (f : A -> A) (l : list A) :
  nth_error (modify_nth n f l) m =
  if Nat.eqb n m then option_map f (nth_error l m) else nth_error l m.
Proof.
  revert n m; induction l as [|x l IH]; intros n m.
  - destruct n, m; simpl; try destruct (Nat.eqb n m); reflexivity.
  - destruct n, m; simpl; auto.
Qed.

Lemma length_modify_nth {A} (n : nat) (f : A -> A) (l : list A) :
  length (modify_nth n f l) = length l.
Proof.
  revert n; induction l as [|x l IH]; intros [|n]; simpl; auto.
Qed.

Lemma at_modify_nth {A} (n : Z) (f : A -> A) (l : list A) (m : Z) :
  0 <= n ->
  at_ (modify_nth (Z.to_nat n) f l) m =
  if Z.eqb n m then option_map f (at_ l m) else at_ l m.
Proof.
  intros Hn; unfold at_.
  destruct (Z.ltb_spec m 0).
  - destruct (Z.eqb_spec n m); [lia|reflexivity].
  - rewrite nth_error_modify_nth.
    destruct (Nat.eqb_spec (Z.to_nat n) (Z.to_nat m)), (Z.eqb_spec n m);
      auto; lia.
Qed.

Lemma get_set_cell (b : Board) (r c : Z) (v : Cell) (i j : Z) :
  0 <= r -> 0 <= c -> get b r c = Some Null ->
  get (set_cell b r c v) i j =
  if (Z.eqb r i && Z.eqb c j)%bool then Some (jsval_of_cell v) else get b i j.
Proof.
  intros Hr Hc Hget; unfold get, set_cell in *.
  rewrite at_modify_nth by exact Hr.
  destruct (Z.eqb_spec r i) as [<-|]; simpl; [|reflexivity].
  destruct (at_ b r) as [row|]; [|discriminate]; simpl.
  unfold read in *; rewrite at_modify_nth by exact Hc.
  destruct (Z.eqb_spec c j) as [<-|]; simpl; [|reflexivity].
  destruct (at_ row c) as [[q|]|]; try discriminate.
  destruct v; reflexivity.
Qed.

Lemma set_cell_wf (b : Board) (r c : Z) (v : Cell) :
  wf_board b -> wf_board (set_cell b r c v).
Proof.
  intros [Hlen Hrows]; unfold set_cell; split.
  - rewrite length_modify_nth; exact Hlen.
  - clear Hlen; generalize (Z.to_nat r) as n.
    induction Hrows as [|row rows Hrow Hrows IH]; intros [|n]; simpl;
      constructor; auto.
    rewrite length_modify_nth; exact Hrow.
Qed.

(** A read that yields [null] is a cell inside the board. *)
Lemma get_null_in_bounds (b : Board) (r c : Z) :
  wf_board b -> get b r c = Some Null -> in_bounds r c = true.
Proof.
  intros Hwf H; unfold get in H.
  destruct (at_ b r) as [row|] eqn:Hrow; [|discriminate].
  injection H as H; unfold read in H.
  destruct (at_ row c) as [[q|]|] eqn:Hc; try discriminate.
  pose proof (wf_row b r row Hwf Hrow) as Hlen.
  unfold at_ in Hrow, Hc.
  destruct (Z.ltb_spec r 0); [discriminate|].
  destruct (Z.ltb_spec c 0); [discriminate|].
  assert (Z.to_nat r < length b)%nat by (apply nth_error_Some; congruence).
  assert (Z.to_nat c < length row)%nat by (apply nth_error_Some; congruence).
  destruct Hwf as [Hb _].
  unfold in_bounds, ROWS, COLS in *.
  apply andb_true_intro; split; [apply andb_true_intro; split|];
    [apply andb_true_intro; split| |]; apply Z.leb_le || apply Z.ltb_lt; lia.
Qed.

(** ** The scan of [dropPiece] *)

Lemma jsval_eqb_null (v : jsval) : jsval_eqb v Null = true <-> v = Null.
Proof. destruct v; simpl; split; congruence. Qed.

(** Whatever the board, a scan either changes nothing or commits a piece at
    a cell it read as [null], below which it read no [null]. *)
Lemma scan_cases (gs : GameState) (b : Board) (col : Z) (fuel : nat)
    (row : Z) (gs' : GameState) :
  scan gs b col fuel row = Some gs' ->
  gs' = gs \/
  exists r, r <= row /\ 0 <= r /\ get b r col = Some Null /\
    (forall r', r < r' <= row -> r' < row + 1 - Z.of_nat fuel \/
                get b r' col <> Some Null) /\
    commit gs (set_cell b r col (Some (currentPlayer gs))) r col = Some gs'.
Proof.
  revert row; induction fuel as [|f IH]; intros row H; simpl in H.
  - left; congruence.
  - destruct (Z.geb_spec row 0); [|left; congruence].
    destruct (get b row col) as [v|] eqn:Hv; [|discriminate].
    destruct (jsval_eqb v Null) eqn:Hnull.
    + apply jsval_eqb_null in Hnull; subst v.
      right; exists row; repeat split; auto; lia.
    + destruct (IH (row - 1) H) as [|[r [Hr1 [Hr2 [Hr3 [Hr4 Hr5]]]]]];
        [left; auto|right].
      exists r; repeat split; auto; try lia.
      intros r' Hr'.
      destruct (Z.eq_dec r' row) as [->|Hne].
      * right; rewrite Hv; intros E; injection E as ->; discriminate.
      * destruct (Hr4 r') as [|]; [lia|left; lia|right; auto].
Qed.

Lemma checkWinner_wf (b : Board) (r c : Z) (p : Player) :
  wf_board b -> checkWinner b r c p = Some (winning_run_spec b r c p).
Proof. intros Hwf; unfold checkWinner; rewrite check_dirs_find; auto. Qed.

Lemma commit_some (gs : GameState) (nb : Board) (r c : Z) :
  wf_board nb -> exists gs', commit gs nb r c = Some gs'.
Proof.
  intros Hwf; unfold commit; rewrite checkWinner_wf by exact Hwf; eauto.
Qed.

Lemma commit_board (gs gs' : GameState) (nb : Board) (r c : Z) :
  commit gs nb r c = Some gs' -> board gs' = nb.
Proof.
  unfold commit; destruct (checkWinner nb r c (currentPlayer gs)); [|discriminate].
  intros H; injection H as <-; reflexivity.
Qed.

Lemma scan_no_null (gs : GameState) (b : Board) (col : Z) (fuel : nat)
    (row : Z) :
  wf_board b -> row < ROWS ->
  (forall r, 0 <= r <= row -> get b r col <> Some Null) ->
  scan gs b col fuel row = Some gs.
Proof.
  intros Hwf; revert row; induction fuel as [|f IH]; intros row Hrow Hnull;
    simpl; [reflexivity|].
  destruct (Z.geb_spec row 0); [|reflexivity].
  destruct (wf_get b row col Hwf) as [rw [_ Hget]]; [lia|].
  rewrite Hget.
  destruct (jsval_eqb (read rw col) Null) eqn:E.
  - apply jsval_eqb_null in E; rewrite E in Hget.
    exfalso; apply (Hnull row); [lia|exact Hget].
  - apply IH; [lia|]; intros r Hr; apply Hnull; lia.
Qed.

Lemma scan_finds (gs : GameState) (b : Board) (col : Z) (fuel : nat)
    (row : Z) :
  wf_board b -> row < ROWS -> row + 1 = Z.of_nat fuel ->
  (exists r, 0 <= r <= row /\ get b r col = Some Null) ->
  exists r, 0 <= r <= row /\ get b r col = Some Null /\
    (forall r', r < r' <= row -> get b r' col <> Some Null) /\
    scan gs b col fuel row =
    commit gs (set_cell b r col (Some (currentPlayer gs))) r col.
Proof.
  intros Hwf; revert row; induction fuel as [|f IH];
    intros row Hrow Hfuel [r0 [Hr0 Hget0]]; [lia|].
  simpl.
  destruct (Z.geb_spec row 0); [|lia].
  destruct (wf_get b row col Hwf) as [rw [_ Hget]]; [lia|].
  rewrite Hget.
  destruct (jsval_eqb (read rw col) Null) eqn:E.
  - apply jsval_eqb_null in E; rewrite E in Hget.
    exists row; repeat split; auto; lia.
  - assert (Hne : get b row col <> Some Null).
    { rewrite Hget; intros Heq; injection Heq as Heq; rewrite Heq in E; discriminate. }
    destruct (IH (row - 1)) as [r [Hr [Hgr [Hbelow Hscan]]]]; try lia.
    + exists r0; split; auto.
      destruct (Z.eq_dec r0 row) as [->|]; [contradiction|lia].
    + exists r; repeat split; auto; try lia.
      intros r' Hr'; destruct (Z.eq_dec r' row) as [->|]; auto.
      apply Hbelow; lia.
Qed.

(** ** Claims about [dropPiece] *)

(** C2: on a state that is not over, a drop into an in-range column whose
    row 0 is empty puts the current player's piece in the largest row whose
    cell is empty and leaves every other cell as it was. *)
Theorem dropPiece_places_lowest (gs : GameState) (col : Z) :
  wf_board (board gs) -> gameOver gs = false -> 0 <= col < COLS ->
  get (board gs) 0 col = Some Null ->
  exists gs' r,
    dropPiece gs col = Some gs' /\
    0 <= r < ROWS /\
    get (board gs) r col = Some Null /\
    (forall r', r < r' < ROWS -> get (board gs) r' col <> Some Null) /\
    get (board gs') r col = Some (Piece (currentPlayer gs)) /\
    (forall i j, (i, j) <> (r, col) ->
                 get (board gs') i j = get (board gs) i j).
Proof.
  intros Hwf Hover Hcol Htop.
  destruct (scan_finds gs (board gs) col (Z.to_nat ROWS) (ROWS - 1) Hwf)
    as [r [Hr [Hget [Hbelow Hscan]]]]; try (unfold ROWS; lia).
  { exists 0; split; [unfold ROWS; lia|exact Htop]. }
  destruct (commit_some gs (set_cell (board gs) r col (Some (currentPlayer gs)))
              r col (set_cell_wf _ _ _ _ Hwf)) as [gs' Hc].
  exists gs', r; unfold dropPiece; rewrite Hover, Hscan, Hc.
  apply commit_board in Hc; rewrite Hc.
  repeat split; auto; try lia.
  - intros r' Hr'; apply Hbelow; lia.
  - rewrite get_set_cell by (auto; lia).
    rewrite Z.eqb_refl, Z.eqb_refl; reflexivity.
  - intros i j Hij; rewrite get_set_cell by (auto; lia).
    destruct (Z.eqb_spec r i), (Z.eqb_spec col j); subst; simpl; auto.
    congruence.
Qed.

(** C3: once the game is over, [dropPiece] leaves the whole state unchanged,
    for any column. *)
Theorem dropPiece_game_over_noop (gs : GameState) (col : Z) :
  gameOver gs = true -> dropPiece gs col = Some gs.
Proof. intros H; unfold dropPiece; rewrite H; reflexivity. Qed.

(** C5: a column outside [[0, COLS)] never makes [dropPiece] throw (every
    read of the scan is a read of an existing row) and leaves the state
    unchanged. *)
Theorem dropPiece_out_of_range_noop (gs : GameState) (col : Z) :
  wf_board (board gs) -> col < 0 \/ COLS <= col ->
  dropPiece gs col = Some gs.
Proof.
  intros Hwf Hcol; unfold dropPiece.
  destruct (gameOver gs); [reflexivity|].
  apply scan_no_null; [exact Hwf|unfold ROWS; lia|].
  intros r _ Hget.
  pose proof (get_null_in_bounds _ _ _ Hwf Hget) as Hb.
  unfold in_bounds in Hb; rewrite !andb_true_iff, !Z.leb_le, !Z.ltb_lt in Hb.
  lia.
Qed.

(** ** Runs as lists of offsets along an axis *)

Lemma zseq_from_app (i : Z) (a b : nat) :
  zseq_from i (a + b) = zseq_from i a ++ zseq_from (i + Z.of_nat a) b.
Proof.
  revert i; induction a as [|a IH]; intros i; simpl.
  - rewrite Z.add_0_r; reflexivity.
  - rewrite IH; do 3 f_equal; lia.
Qed.

Lemma length_zseq_from (i : Z) (n : nat) : length (zseq_from i n) = n.
Proof. revert i; induction n; simpl; auto. Qed.

Lemma in_zseq_from (i k : Z) (n : nat) :
  In k (zseq_from i n) <-> i <= k < i + Z.of_nat n.
Proof.
  revert i; induction n as [|n IH]; intros i; simpl; [lia|].
  rewrite IH; lia.
Qed.

Lemma rev_zseq_neg (g : Z -> Z * Z) (n : nat) :
  map (fun k => g (- k)) (rev (zseq_from 1 n)) =
  map g (zseq_from (- Z.of_nat n) n).
Proof.
  induction n as [|n IH]; [reflexivity|].
  rewrite <- Nat.add_1_r, zseq_from_app, rev_app_distr, map_app, IH.
  rewrite Nat.add_1_r; cbn [zseq_from rev map app].
  f_equal; [f_equal; lia | do 2 f_equal; lia].
Qed.

Lemma walk_le (ok : Z -> bool) (fuel : nat) (i : Z) :
  (walk ok fuel i <= fuel)%nat.
Proof.
  revert i; induction fuel as [|f IH]; intros i; simpl; [lia|].
  destruct (ok i); [specialize (IH (i + 1))|]; lia.
Qed.

Lemma walk_ok (ok : Z -> bool) (fuel : nat) (i k : Z) :
  i <= k < i + Z.of_nat (walk ok fuel i) -> ok k = true.
Proof.
  revert i; induction fuel as [|f IH]; intros i Hk; simpl in Hk; [lia|].
  destruct (ok i) eqn:E; simpl in Hk; [|lia].
  destruct (Z.eq_dec k i) as [->|]; auto.
  apply (IH (i + 1)); lia.
Qed.

Section Axis.
Variables (b : Board) (r c : Z) (p : Player) (dx dy : Z).

Lemma axis_run_offsets :
  let n := walk (fun i => owned_by b p (r - dx * i) (c - dy * i)) 3 1 in
  let m := walk (fun i => owned_by b p (r + dx * i) (c + dy * i)) 3 1 in
  axis_run b r c p (dx, dy) =
  map (fun k => (r + dx * k, c + dy * k))
      (zseq_from (- Z.of_nat n) (n + 1 + m)).
Proof.
  intros n m; unfold axis_run; fold n m.
  rewrite zseq_from_app, zseq_from_app, !map_app.
  rewrite <- (rev_zseq_neg (fun k => (r + dx * k, c + dy * k))).
  rewrite <- app_assoc.
  f_equal; [apply map_ext; intros k; f_equal; lia|].
  simpl; f_equal; [f_equal; lia|].
  rewrite Nat2Z.inj_add.
  replace (- Z.of_nat n + (Z.of_nat n + Z.of_nat 1)) with 1 by lia;
    reflexivity.
Qed.

Lemma axis_run_owned (k : Z) :
  let n := walk (fun i => owned_by b p (r - dx * i) (c - dy * i)) 3 1 in
  let m := walk (fun i => owned_by b p (r + dx * i) (c + dy * i)) 3 1 in
  owned_by b p r c = true -> - Z.of_nat n <= k <= Z.of_nat m ->
  owned_by b p (r + dx * k) (c + dy * k) = true.
Proof.
  intros n m Hrc Hk.
  destruct (Z.lt_total k 0) as [Hlt|[->|Hgt]].
  - pose proof (walk_ok (fun i => owned_by b p (r - dx * i) (c - dy * i))
                  3 1 (- k)) as H; fold n in H; cbv beta in H.
    replace (r + dx * k) with (r - dx * - k) by lia.
    replace (c + dy * k) with (c - dy * - k) by lia.
    apply H; lia.
  - rewrite !Z.mul_0_r, !Z.add_0_r; exact Hrc.
  - pose proof (walk_ok (fun i => owned_by b p (r + dx * i) (c + dy * i))
                  3 1 k) as H; fold m in H; cbv beta in H.
    apply H; lia.
Qed.

End Axis.

Lemma owned_by_true (b : Board) (p : Player) (i j : Z) :
  owned_by b p i j = true -> in_bounds i j = true /\ occupant b i j = Some p.
Proof.
  unfold owned_by; rewrite andb_true_iff; intros [Hb Ho]; split; auto.
  destruct (occupant b i j) as [q|]; [|discriminate].
  destruct q, p; simpl in Ho; congruence.
Qed.

(** Every non-empty result of [checkWinner] seeded at a cell of the mover is
    a winning line of the mover. *)
Lemma checkWinner_line (b : Board) (r c : Z) (p : Player)
    (wc : list (Z * Z)) :
  wf_board b -> owned_by b p r c = true ->
  checkWinner b r c p = Some wc -> wc <> [] -> winning_line b p wc.
Proof.
  intros Hwf Hrc Hcw Hne.
  rewrite checkWinner_wf in Hcw by exact Hwf; injection Hcw as <-.
  unfold winning_run_spec in *.
  destruct (find _ _) as [[dx dy]|] eqn:Hf; [|contradiction].
  apply find_some in Hf as [Hin Hlen].
  rewrite Nat.leb_le, axis_run_offsets, length_map, length_zseq_from in Hlen.
  rewrite axis_run_offsets, firstn_map.
  pose proof (axis_run_owned b r c p dx dy) as Hown.

  set (n := walk (fun i => owned_by b p (r - dx * i) (c - dy * i)) 3 1)
    in *.
  set (m := walk (fun i => owned_by b p (r + dx * i) (c + dy * i)) 3 1)
    in *.
  replace (n + 1 + m)%nat with (4 + (n + m - 3))%nat by lia.
  rewrite zseq_from_app, firstn_app, length_zseq_from, Nat.sub_diag,
    firstn_0, app_nil_r, firstn_all2 by (rewrite length_zseq_from; lia).
  exists (r + dx * - Z.of_nat n), (c + dy * - Z.of_nat n), dx, dy.
  split; [exact Hin|split].
  - cbn [zseq_from map]; repeat first [ring | f_equal].
  - apply Forall_forall; intros [i j] Hij.
    apply in_map_iff in Hij as [k [Ek Hk]]; injection Ek as <- <-.
    apply in_zseq_from in Hk.
    apply owned_by_true, Hown; auto; lia.
Qed.

(** ** Reads through [occupant] *)

Lemma get_occupant (b : Board) (r c : Z) :
  wf_board b -> in_bounds r c = true ->
  get b r c = Some (jsval_of_cell (occupant b r c)).
Proof.
  intros Hwf Hb; unfold in_bounds in Hb.
  rewrite !andb_true_iff, !Z.leb_le, !Z.ltb_lt in Hb.
  destruct (wf_get b r c Hwf) as [row [Hrow Hget]]; [lia|].
  rewrite Hget; unfold occupant, read; rewrite Hrow.
  destruct (at_in_range row c) as [x Hx]; [lia| |].
  - rewrite (wf_row b r row Hwf Hrow); unfold COLS in *; lia.
  - rewrite Hx; destruct x; reflexivity.
Qed.

Lemma occupant_set_cell (b : Board) (r c : Z) (v : Cell) (i j : Z) :
  0 <= r -> 0 <= c -> get b r c = Some Null ->
  occupant (set_cell b r c v) i j =
  if (Z.eqb r i && Z.eqb c j)%bool then v else occupant b i j.
Proof.
  intros Hr Hc Hget; unfold get, occupant, set_cell in *.
  rewrite at_modify_nth by exact Hr.
  destruct (Z.eqb_spec r i) as [<-|]; simpl; [|reflexivity].
  destruct (at_ b r) as [row|]; [|discriminate]; simpl.
  unfold read in *; rewrite at_modify_nth by exact Hc.
  destruct (Z.eqb_spec c j) as [<-|]; simpl; [|reflexivity].
  destruct (at_ row c) as [[q|]|]; try discriminate; reflexivity.
Qed.

Lemma forallb_board_full (b : Board) :
  forallb (fun r => forallb cell_filled r) b = true <-> board_full b.
Proof.
  unfold board_full; rewrite forallb_forall, Forall_forall.
  split; intros H row Hrow; specialize (H row Hrow).
  - rewrite forallb_forall in H; apply Forall_forall; intros x Hx.
    specialize (H x Hx); destruct x; [discriminate|discriminate].
  - apply forallb_forall; intros x Hx; rewrite Forall_forall in H.
    specialize (H x Hx); destruct x; [reflexivity|contradiction].
Qed.

(** ** What a drop does *)

Lemma dropPiece_cases (gs : GameState) (col : Z) (gs' : GameState) :
  dropPiece gs col = Some gs' ->
  gs' = gs \/
  (gameOver gs = false /\
   exists r wc,
     let p := currentPlayer gs in
     let nb := set_cell (board gs) r col (Some p) in
     let hasWinner := (0 <? length wc)%nat in
     let isDraw := negb hasWinner
                   && forallb (fun r => forallb cell_filled r) nb in
     0 <= r < ROWS /\ get (board gs) r col = Some Null /\
     (forall r', r < r' < ROWS -> get (board gs) r' col <> Some Null) /\
     checkWinner nb r col p = Some wc /\
     gs' = mkGameState nb (if hasWinner || isDraw then p else other p)
             (if hasWinner then Some p else None) wc (hasWinner || isDraw)).
Proof.
  unfold dropPiece; destruct (gameOver gs) eqn:Hover.
  - intros H; left; congruence.
  - intros H; apply scan_cases in H
      as [->|[r [Hr1 [Hr2 [Hr3 [Hr4 Hc]]]]]]; [left; reflexivity|right].
    split; [reflexivity|].
    unfold commit in Hc.
    destruct (checkWinner _ r col _) as [wc|] eqn:Hcw; [|discriminate].
    injection Hc as <-.
    exists r, wc; cbv zeta; repeat split; auto.
    + unfold ROWS in *; lia.
    + intros r' Hr'; destruct (Hr4 r') as [|]; auto; unfold ROWS in *;
        simpl in *; lia.
Qed.

Lemma occupant_repeat (i j : Z) : occupant empty_board i j = None.
Proof.
  unfold occupant, empty_board.
  destruct (at_ _ i) as [row|] eqn:Hrow; [|reflexivity].
  assert (row = repeat None (Z.to_nat COLS)) as ->.
  { unfold at_ in Hrow; destruct (i <? 0); [discriminate|].
    apply nth_error_In, repeat_spec in Hrow; exact Hrow. }
  destruct (at_ _ j) as [x|] eqn:Hx; [|reflexivity].
  unfold at_ in Hx; destruct (j <? 0); [discriminate|].
  apply nth_error_In, repeat_spec in Hx; exact Hx.
Qed.

Lemma engine_inv_initial : engine_inv initial_state.
Proof.
  split; [repeat constructor|split; [|split]]; simpl.
  - intros r r' c _ _ H; exfalso; apply H, occupant_repeat.
  - split; congruence.
  - intros H; exfalso; apply H; reflexivity.
Qed.

Lemma engine_inv_drop (gs gs' : GameState) (col : Z) :
  engine_inv gs -> dropPiece gs col = Some gs' -> engine_inv gs'.
Proof.
  intros Hinv Hdrop.
  apply dropPiece_cases in Hdrop as [->|[Hover [r [wc Hd]]]]; [exact Hinv|].
  cbv zeta in Hd; destruct Hd as [Hr [Hnull [Hbelow [Hcw ->]]]].
  destruct Hinv as [Hwf [Hgrav _]].
  set (p := currentPlayer gs) in *.
  set (nb := set_cell (board gs) r col (Some p)) in *.
  assert (Hcol : in_bounds r col = true)
    by exact (get_null_in_bounds _ _ _ Hwf Hnull).
  assert (Hcol' := Hcol); unfold in_bounds in Hcol'.
  rewrite !andb_true_iff, !Z.leb_le, !Z.ltb_lt in Hcol'.
  assert (Hocc : forall i j, occupant nb i j =
            if (Z.eqb r i && Z.eqb col j)%bool then Some p
            else occupant (board gs) i j)
    by (intros; apply occupant_set_cell; auto; lia).
  assert (Hwf' : wf_board nb) by (apply set_cell_wf; exact Hwf).
  unfold engine_inv; cbn [board winner winningCells gameOver].
  split; [exact Hwf'|split; [|split]].
  - (* no floating pieces *)
    intros r1 r2 c Hr1 Hr12 H1; rewrite Hocc in H1 |- *.
    destruct (Z.eqb_spec r r2), (Z.eqb_spec col c), (Z.eqb_spec r r1);
      simpl in *; try congruence;
      try (apply (Hgrav r1 r2 c); auto; fail).
    subst; intros Hn.
    apply (Hbelow r2); [lia|].
    rewrite get_occupant, Hn; [reflexivity|exact Hwf|].
    unfold in_bounds; rewrite !andb_true_iff, !Z.leb_le, !Z.ltb_lt; lia.
  - destruct wc; simpl; split; congruence.
  - intros Hne.
    assert (Hw : (0 <? length wc)%nat = true)
      by (destruct wc; [contradiction|reflexivity]).
    rewrite Hw; simpl; split; [reflexivity|].
    exists p; split; [reflexivity|].
    apply (checkWinner_line nb r col p wc Hwf'); auto.
    unfold owned_by; rewrite Hcol, Hocc, !Z.eqb_refl; simpl.
    destruct p; reflexivity.
Qed.

Lemma engine_inv_reachable (gs : GameState) :
  reachable gs -> engine_inv gs.
Proof.
  induction 1.
  - exact engine_inv_initial.
  - eapply engine_inv_drop; eauto.
  - exact engine_inv_initial.
Qed.

Lemma play_reachable (gs gs' : GameState) (cols : list Z) :
  reachable gs -> play gs cols = Some gs' -> reachable gs'.
Proof.
  revert gs; induction cols as [|c cs IH]; intros gs Hgs Hplay; simpl in Hplay.
  - congruence.
  - destruct (dropPiece gs c) as [gs1|] eqn:Hd; [|discriminate].
    apply (IH gs1); [eapply reach_drop; eauto|exact Hplay].
Qed.

Lemma after_reachable (cols : list Z) :
  play initial_state cols <> None -> reachable (after cols).
Proof.
  unfold after; destruct (play initial_state cols) eqn:E; [|congruence].
  intros _; eapply play_reachable; [exact reach_init|exact E].
Qed.

Lemma wf_empty_board : wf_board empty_board.
Proof. repeat constructor. Qed.

(** ** Claims *)

(** C1: [checkWinner] checks the axes in the order horizontal, vertical,
    diagonal "/", diagonal "\", stops at the first axis whose run (the
    negative-side cells in spatial order, the played cell, the
    positive-side cells) has at least 4 cells, and returns the first 4
    cells of that run; it returns [[]] when no axis qualifies. *)
Theorem checkWinner_first_axis_first_four (b : Board) (r c : Z) (p : Player) :
  wf_board b -> checkWinner b r c p = Some (winning_run_spec b r c p).
Proof. intros Hwf; unfold checkWinner; apply check_dirs_find, Hwf. Qed.

Lemma checkWinner_first_axis_first_four_witness :
  wf_board column3_stack /\
  checkWinner column3_stack (ROWS - 4) 3 P1 =
    Some (winning_run_spec column3_stack (ROWS - 4) 3 P1).
Proof.
  assert (Hwf : wf_board column3_stack) by (vm_compute; repeat constructor).
  split; [exact Hwf|].
  apply checkWinner_first_axis_first_four; exact Hwf.
Defined.

Lemma dropPiece_places_lowest_witness :
  exists gs' r,
    dropPiece initial_state 3 = Some gs' /\ 0 <= r < ROWS /\
    get (board initial_state) r 3 = Some Null /\
    (forall r', r < r' < ROWS -> get (board initial_state) r' 3 <> Some Null) /\
    get (board gs') r 3 = Some (Piece (currentPlayer initial_state)) /\
    (forall i j, (i, j) <> (r, 3) ->
                 get (board gs') i j = get (board initial_state) i j).
Proof.
  apply dropPiece_places_lowest;
    [exact wf_empty_board|reflexivity|unfold COLS; lia|reflexivity].
Defined.

Lemma dropPiece_game_over_noop_witness :
  gameOver (mkGameState empty_board P2 (Some P1) [] true) = true /\
  dropPiece (mkGameState empty_board P2 (Some P1) [] true) 9 =
  Some (mkGameState empty_board P2 (Some P1) [] true).
Proof.
  split; [reflexivity|apply dropPiece_game_over_noop; reflexivity].
Defined.

(** C4: in every state the game can hold (reachable from the initial
    state by [dropPiece] and [resetGame]), a drop into an in-range column
    whose row 0 is occupied is a no-op: the state is unchanged. Reachable
    boards have no floating pieces, so such a column is full. *)
Theorem dropPiece_full_column_noop (gs : GameState) (col : Z) (q : Player) :
  reachable gs -> 0 <= col < COLS ->
  get (board gs) 0 col = Some (Piece q) ->
  dropPiece gs col = Some gs.
Proof.
  intros Hreach Hcol Htop.
  destruct (engine_inv_reachable gs Hreach) as [Hwf [Hgrav _]].
  unfold dropPiece; destruct (gameOver gs); [reflexivity|].
  apply scan_no_null; [exact Hwf|unfold ROWS; lia|].
  assert (Hocc : occupant (board gs) 0 col = Some q).
  { rewrite get_occupant in Htop; [|exact Hwf|].
    - destruct (occupant (board gs) 0 col); simpl in Htop; congruence.
    - unfold in_bounds; rewrite !andb_true_iff, !Z.leb_le, !Z.ltb_lt.
      unfold ROWS, COLS in *; lia. }
  intros r Hr.
  destruct (Z.eq_dec r 0) as [->|Hr0]; [rewrite Htop; congruence|].
  assert (Hb : occupant (board gs) r col <> None)
    by (apply (Hgrav 0 r col); [lia|unfold ROWS in *; lia|congruence]).
  rewrite get_occupant; [|exact Hwf|].
  - destruct (occupant (board gs) r col); simpl; congruence.
  - unfold in_bounds; rewrite !andb_true_iff, !Z.leb_le, !Z.ltb_lt.
    unfold ROWS, COLS in *; lia.
Qed.

Lemma dropPiece_full_column_noop_witness :
  dropPiece column0_full 0 = Some column0_full.
Proof.
  apply (dropPiece_full_column_noop column0_full 0 P2).
  - apply after_reachable; vm_compute; congruence.
  - unfold COLS; lia.
  - vm_compute; reflexivity.
Defined.

Lemma dropPiece_out_of_range_noop_witness :
  dropPiece initial_state 7 = Some initial_state /\
  dropPiece initial_state (-1) = Some initial_state.
Proof.
  split; apply dropPiece_out_of_range_noop;
    try exact wf_empty_board; unfold COLS; lia.
Defined.

(** C6: a drop that places a piece, finds no winning run and leaves an
    empty cell keeps the game going: not over, no winner, and the turn
    passes to the other player. *)
Theorem dropPiece_continues (gs gs' : GameState) (col : Z) :
  dropPiece gs col = Some gs' -> board gs' <> board gs ->
  winningCells gs' = [] -> ~ board_full (board gs') ->
  gameOver gs' = false /\ winner gs' = None /\
  currentPlayer gs' <> currentPlayer gs.
Proof.
  intros Hdrop Hchg Hwc Hfull.
  apply dropPiece_cases in Hdrop as [->|[_ [r [wc Hd]]]]; [congruence|].
  cbv zeta in Hd; destruct Hd as [_ [_ [_ [_ ->]]]].
  simpl in *; subst wc; simpl.
  destruct (forallb _ _) eqn:Hf.
  - exfalso; apply Hfull; apply forallb_board_full; exact Hf.
  - simpl; repeat split; auto.
    unfold other; destruct (currentPlayer gs); simpl; discriminate.
Qed.

Lemma dropPiece_continues_witness :
  exists gs', dropPiece initial_state 3 = Some gs' /\
    gameOver gs' = false /\ winner gs' = None /\
    currentPlayer gs' <> currentPlayer initial_state.
Proof.
  exists (after [3]); split; [reflexivity|].
  apply (dropPiece_continues initial_state (after [3]) 3).
  - reflexivity.
  - vm_compute; congruence.
  - reflexivity.
  - rewrite <- forallb_board_full; vm_compute; discriminate.
Defined.

(** C7: a drop that places a piece, finds no winning run and fills the
    board ends the game in a draw: over, no winner, no winning cells, and
    the mover stays the current player. *)
Theorem dropPiece_draw (gs gs' : GameState) (col : Z) :
  dropPiece gs col = Some gs' -> board gs' <> board gs ->
  winningCells gs' = [] -> board_full (board gs') ->
  gameOver gs' = true /\ winner gs' = None /\ winningCells gs' = [] /\
  currentPlayer gs' = currentPlayer gs.
Proof.
  intros Hdrop Hchg Hwc Hfull.
  apply dropPiece_cases in Hdrop as [->|[_ [r [wc Hd]]]]; [congruence|].
  cbv zeta in Hd; destruct Hd as [_ [_ [_ [_ ->]]]].
  simpl in *; subst wc; simpl.
  apply forallb_board_full in Hfull; rewrite Hfull; simpl.
  repeat split; reflexivity.
Qed.

Lemma dropPiece_draw_witness :
  exists gs', dropPiece almost_drawn 6 = Some gs' /\
    gameOver gs' = true /\ winner gs' = None /\ winningCells gs' = [] /\
    currentPlayer gs' = currentPlayer almost_drawn.
Proof.
  destruct (dropPiece almost_drawn 6) as [gs'|] eqn:Hd;
    [|vm_compute in Hd; discriminate].
  exists gs'; split; [reflexivity|].
  apply (dropPiece_draw almost_drawn gs' 6 Hd).
  - vm_compute in Hd; injection Hd as <-; vm_compute; congruence.
  - vm_compute in Hd; injection Hd as <-; reflexivity.
  - vm_compute in Hd; injection Hd as <-.
    apply forallb_board_full; reflexivity.
Defined.

(** C8: in every reachable state, non-empty [winningCells] are 4 in-bounds
    cells holding the winner's pieces, collinear and contiguous with unit
    spacing along one of the four axes. *)
Theorem reachable_winningCells_line (gs : GameState) :
  reachable gs -> winningCells gs <> [] ->
  exists p, winner gs = Some p /\ winning_line (board gs) p (winningCells gs).
Proof.
  intros Hreach Hne.
  destruct (engine_inv_reachable gs Hreach) as [_ [_ [_ Hwin]]].
  apply Hwin, Hne.
Qed.

Lemma reachable_winningCells_line_witness :
  exists p, winner vertical_win = Some p /\
    winning_line (board vertical_win) p (winningCells vertical_win).
Proof.
  apply reachable_winningCells_line.
  - apply after_reachable; vm_compute; congruence.
  - vm_compute; congruence.
Defined.

(** C9 (scenario A): four player-1 pieces in column 3, rows [ROWS-1] up to
    [ROWS-4]; the win check seeded at the last one finds the vertical axis
    (the first axis whose run has 4 cells) and reports the four cells of
    column 3, listed from row [ROWS-4] down to row [ROWS-1]. *)
Theorem scenario_a_vertical_win :
  checkWinner column3_stack (ROWS - 4) 3 P1 =
    Some [(ROWS - 4, 3); (ROWS - 3, 3); (ROWS - 2, 3); (ROWS - 1, 3)] /\
  find (fun d => 4 <=? length (axis_run column3_stack (ROWS - 4) 3 P1 d))%nat
       [axis_horizontal; axis_vertical; axis_diag_slash; axis_diag_backslash]
    = Some axis_vertical.
Proof. split; vm_compute; reflexivity. Qed.

(** C10: in every reachable state there is a winner exactly when there are
    winning cells. *)
Theorem reachable_winner_iff_cells (gs : GameState) :
  reachable gs -> (winner gs <> None <-> winningCells gs <> []).
Proof.
  intros Hreach.
  destruct (engine_inv_reachable gs Hreach) as [_ [_ [Hiff _]]].
  exact Hiff.
Qed.

Lemma reachable_winner_iff_cells_witness :
  (winner vertical_win <> None <-> winningCells vertical_win <> []) /\
  (winner initial_state <> None <-> winningCells initial_state <> []).
Proof.
  split; apply reachable_winner_iff_cells.
  - apply after_reachable; vm_compute; congruence.
  - exact reach_init.
Defined.

(** ** Further properties of the component *)

Lemma get_null_occupant (b : Board) (r c : Z) :
  get b r c = Some Null -> occupant b r c = None /\ 0 <= r /\ 0 <= c.
Proof.
  unfold get, occupant, read.
  destruct (at_ b r) as [row|] eqn:Hrow; [|discriminate].
  destruct (at_ row c) as [[q|]|] eqn:Hc; try discriminate.
  intros _; unfold at_ in Hrow, Hc.
  destruct (Z.ltb_spec r 0); [discriminate|].
  destruct (Z.ltb_spec c 0); [discriminate|].
  repeat split; lia.
Qed.

(** A drop never removes or changes a piece already on the board. *)
Theorem dropPiece_keeps_pieces (gs gs' : GameState) (col i j : Z) (q : Player) :
  dropPiece gs col = Some gs' ->
  occupant (board gs) i j = Some q -> occupant (board gs') i j = Some q.
Proof.
  intros Hdrop Hq.
  apply dropPiece_cases in Hdrop as [->|[_ [r [wc Hd]]]]; [exact Hq|].
  cbv zeta in Hd; destruct Hd as [_ [Hnull [_ [_ ->]]]]; simpl.
  destruct (get_null_occupant _ _ _ Hnull) as [Hocc [Hr Hc]].
  rewrite occupant_set_cell by auto.
  destruct (Z.eqb_spec r i), (Z.eqb_spec col j); simpl; auto.
  subst; congruence.
Qed.

Lemma dropPiece_keeps_pieces_witness :
  occupant (board (after [3])) 5 3 = Some P1 /\
  occupant (board (after [3; 3])) 5 3 = Some P1.
Proof.
  split; [reflexivity|].
  apply (dropPiece_keeps_pieces (after [3]) (after [3; 3]) 3 5 3 P1);
    reflexivity.
Defined.

(** The winning cells reported by [checkWinner] always include the cell it
    was seeded at (the cell just played). *)
Theorem checkWinner_contains_seed (b : Board) (r c : Z) (p : Player)
    (wc : list (Z * Z)) :
  wf_board b -> checkWinner b r c p = Some wc -> wc <> [] -> In (r, c) wc.
Proof.
  intros Hwf Hcw Hne.
  rewrite checkWinner_wf in Hcw by exact Hwf; injection Hcw as <-.
  unfold winning_run_spec in *.
  destruct (find _ _) as [[dx dy]|] eqn:Hf; [|contradiction].
  apply find_some in Hf as [_ Hlen].
  rewrite Nat.leb_le, axis_run_offsets, length_map, length_zseq_from in Hlen.
  rewrite axis_run_offsets, firstn_map.
  pose proof (walk_le (fun i => owned_by b p (r - dx * i) (c - dy * i)) 3 1)
    as Hn.
  set (n := walk (fun i => owned_by b p (r - dx * i) (c - dy * i)) 3 1)
    in *.
  set (m := walk (fun i => owned_by b p (r + dx * i) (c + dy * i)) 3 1)
    in *.
  replace (n + 1 + m)%nat with (4 + (n + m - 3))%nat by lia.
  rewrite zseq_from_app, firstn_app, length_zseq_from, Nat.sub_diag,
    firstn_0, app_nil_r, firstn_all2 by (rewrite length_zseq_from; lia).
  apply in_map_iff; exists 0; split.
  - f_equal; ring.
  - apply in_zseq_from; lia.
Qed.

Lemma checkWinner_contains_seed_witness :
  In (ROWS - 4, 3) [(ROWS - 4, 3); (ROWS - 3, 3); (ROWS - 2, 3); (ROWS - 1, 3)].
Proof.
  apply (checkWinner_contains_seed column3_stack (ROWS - 4) 3 P1).
  - vm_compute; repeat constructor.
  - vm_compute; reflexivity.
  - discriminate.
Defined.

(** In every reachable state the board keeps its ROWS x COLS shape and has
    no floating pieces. *)
Theorem reachable_no_floating (gs : GameState) :
  reachable gs -> wf_board (board gs) /\ gravity (board gs).
Proof.
  intros Hreach.
  destruct (engine_inv_reachable gs Hreach) as [Hwf [Hgrav _]]; auto.
Qed.

Lemma reachable_no_floating_witness :
  wf_board (board vertical_win) /\ gravity (board vertical_win).
Proof.
  apply reachable_no_floating, after_reachable; vm_compute; congruence.
Defined.

(** A cell highlighted by [isWinningCell] in a reachable state is a cell of
    the board holding the winner's piece, and the game is over. *)
Theorem isWinningCell_sound (gs : GameState) (r c : Z) :
  reachable gs -> isWinningCell gs r c = true ->
  gameOver gs = true /\
  exists p, winner gs = Some p /\ in_bounds r c = true /\
            occupant (board gs) r c = Some p.
Proof.
  intros Hreach Hwc.
  unfold isWinningCell in Hwc; apply existsb_exists in Hwc
    as [[r' c'] [Hin Heq]].
  rewrite andb_true_iff, !Z.eqb_eq in Heq; destruct Heq as [-> ->].
  destruct (engine_inv_reachable gs Hreach) as [_ [_ [_ Hwin]]].
  destruct Hwin as [Hover [p [Hp [r0 [c0 [dx [dy [_ [_ Hall]]]]]]]]];
    [destruct (winningCells gs); [contradiction|discriminate]|].
  split; [exact Hover|exists p; split; [exact Hp|]].
  rewrite Forall_forall in Hall; exact (Hall (r, c) Hin).
Qed.

Lemma isWinningCell_sound_witness :
  gameOver vertical_win = true /\
  exists p, winner vertical_win = Some p /\ in_bounds 2 3 = true /\
            occupant (board vertical_win) 2 3 = Some p.
Proof.
  apply isWinningCell_sound.
  - apply after_reachable; vm_compute; congruence.
  - vm_compute; reflexivity.
Defined.

Lemma empty_board_not_full : ~ board_full empty_board.
Proof. intros H; apply forallb_board_full in H; discriminate. Qed.

(** Game over without a winner only on a full board; a running game never
    has a full board. *)
Lemma over_inv_reachable (gs : GameState) :
  reachable gs ->
  (gameOver gs = true -> winner gs = None -> board_full (board gs)) /\
  (gameOver gs = false -> ~ board_full (board gs)).
Proof.
  induction 1 as [|gs col gs' Hreach IH Hdrop|gs Hreach IH].
  - split; [discriminate|intros _; exact empty_board_not_full].
  - apply dropPiece_cases in Hdrop as [->|[_ [r [wc Hd]]]]; [exact IH|].
    cbv zeta in Hd; destruct Hd as [_ [_ [_ [_ ->]]]]; simpl.
    rewrite <- forallb_board_full.
    destruct (0 <? length wc)%nat, (forallb _ _); simpl;
      split; intros; congruence.
  - split; [discriminate|intros _; exact empty_board_not_full].
Qed.

(** The status line shows "It's a Draw!" only on a full board. *)
Theorem status_draw_full (gs : GameState) :
  reachable gs -> status gs = Draw -> board_full (board gs).
Proof.
  intros Hreach Hst; unfold status in Hst.
  destruct (winner gs) eqn:Hw; [discriminate|].
  destruct (gameOver gs) eqn:Ho; [|discriminate].
  apply (proj1 (over_inv_reachable gs Hreach)); auto.
Qed.

Lemma status_draw_full_witness : board_full (board drawn_game).
Proof.
  apply status_draw_full.
  - apply after_reachable; vm_compute; congruence.
  - vm_compute; reflexivity.
Defined.

(** While the game is not over, the status line announces the turn of the
    current player (there is never a winner before the game is over). *)
Theorem status_running_turn (gs : GameState) :
  reachable gs -> gameOver gs = false -> status gs = Turn (currentPlayer gs).
Proof.
  intros Hreach Ho; unfold status.
  destruct (engine_inv_reachable gs Hreach) as [_ [_ [Hiff Hwin]]].
  destruct (winner gs) eqn:Hw; [|rewrite Ho; reflexivity].
  exfalso.
  assert (Hne : winningCells gs <> []) by (apply Hiff; congruence).
  destruct (Hwin Hne) as [Ho' _]; congruence.
Qed.

Lemma status_running_turn_witness : status (after [3; 4]) = Turn P1.
Proof.
  apply (status_running_turn (after [3; 4])).
  - apply after_reachable; vm_compute; congruence.
  - reflexivity.
Defined.

Lemma full_from_top (b : Board) :
  wf_board b -> gravity b ->
  (forall c, 0 <= c < COLS -> occupant b 0 c <> None) -> board_full b.
Proof.
  intros Hwf Hgrav Htop.
  unfold board_full; apply Forall_forall; intros row Hrow.
  apply In_nth_error in Hrow as [i Hi].
  change (@nth_error (list Cell) b i = Some row) in Hi.
  apply Forall_forall; intros x Hx.
  apply In_nth_error in Hx as [j Hj].
  change (@nth_error Cell row j = Some x) in Hj.
  assert (Hocc : occupant b (Z.of_nat i) (Z.of_nat j) = x).
  { unfold occupant, at_.
    destruct (Z.ltb_spec (Z.of_nat i) 0); [lia|].
    rewrite Nat2Z.id, Hi.
    destruct (Z.ltb_spec (Z.of_nat j) 0); [lia|].
    rewrite Nat2Z.id, Hj; reflexivity. }
  assert (Hilen : (i < length b)%nat) by (apply nth_error_Some; congruence).
  assert (Hjlen : (j < length row)%nat).
  { apply nth_error_Some; intros E.
    change (@nth_error Cell row j = None) in E; congruence. }
  assert (Hrl : length row = Z.to_nat COLS).
  { apply (wf_row b (Z.of_nat i)); [exact Hwf|].
    unfold at_; destruct (Z.ltb_spec (Z.of_nat i) 0); [lia|].
    rewrite Nat2Z.id; exact Hi. }
  destruct Hwf as [Hlen _].
  rewrite <- Hocc.
  destruct i as [|i].
  - apply Htop; unfold COLS in *; lia.
  - apply (Hgrav 0); [lia|unfold ROWS in *; lia|].
    apply Htop; unfold COLS in *; lia.
Qed.

(** A running game is never stuck: some column in range accepts a piece. *)
Theorem running_game_has_free_column (gs : GameState) :
  reachable gs -> gameOver gs = false ->
  exists col, 0 <= col < COLS /\ canDropInColumn gs col = Some true.
Proof.
  intros Hreach Ho.
  destruct (engine_inv_reachable gs Hreach) as [Hwf [Hgrav _]].
  pose proof (proj2 (over_inv_reachable gs Hreach) Ho) as Hnotfull.
  destruct (existsb (fun c => negb (cell_filled (occupant (board gs) 0 c)))
              [0; 1; 2; 3; 4; 5; 6]) eqn:E.
  - apply existsb_exists in E as [c [Hin Hc]].
    assert (Hcr : 0 <= c < COLS)
      by (simpl in Hin; unfold COLS; intuition lia).
    exists c; split; [exact Hcr|].
    unfold canDropInColumn; rewrite Ho; simpl.
    rewrite get_occupant; [|exact Hwf|].
    + destruct (occupant (board gs) 0 c); [discriminate|reflexivity].
    + unfold in_bounds; rewrite !andb_true_iff, !Z.leb_le, !Z.ltb_lt.
      unfold ROWS, COLS in *; lia.
  - exfalso; apply Hnotfull, full_from_top; auto.
    intros c Hc Hn.
    assert (Hin : In c [0; 1; 2; 3; 4; 5; 6])
      by (unfold COLS in Hc; simpl; lia).
    assert (Ht : existsb (fun c => negb (cell_filled (occupant (board gs) 0 c)))
                   [0; 1; 2; 3; 4; 5; 6] = true)
      by (apply existsb_exists; exists c; rewrite Hn; auto).
    congruence.
Qed.

Lemma running_game_has_free_column_witness :
  exists col, 0 <= col < COLS /\ canDropInColumn column0_full col = Some true.
Proof.
  apply running_game_has_free_column.
  - apply after_reachable; vm_compute; congruence.
  - reflexivity.
Defined.

Definition piece_delta (q p : Player) : nat := if player_eqb q p then 1 else 0.

Lemma count_row_cons (p : Player) (x : Cell) (l : list Cell) :
  count_row p (x :: l) =
  ((match x with Some q => piece_delta q p | None => 0 end) + count_row p l)%nat.
Proof.
  unfold count_row, piece_delta; simpl.
  destruct x as [q|]; [destruct (player_eqb q p)|]; reflexivity.
Qed.

Lemma count_row_modify (p q : Player) (f : Cell -> Cell) (row : list Cell)
    (n : nat) :
  f None = Some q -> nth_error row n = Some None ->
  count_row p (modify_nth n f row) = (count_row p row + piece_delta q p)%nat.
Proof.
  intros Hf; revert n; induction row as [|x row IH]; intros [|n] Hn;
    simpl in Hn; try discriminate.
  - injection Hn as ->; cbn [modify_nth].
    rewrite !count_row_cons, Hf; lia.
  - cbn [modify_nth]; rewrite !count_row_cons, (IH n Hn); lia.
Qed.

Lemma count_pieces_cons (p : Player) (row : list Cell) (b : Board) :
  count_pieces (row :: b) p = (count_row p row + count_pieces b p)%nat.
Proof. reflexivity. Qed.

Lemma count_pieces_set_cell (b : Board) (r c : Z) (p q : Player) :
  get b r c = Some Null ->
  count_pieces (set_cell b r c (Some q)) p = (count_pieces b p + piece_delta q p)%nat.
Proof.
  intros Hget.
  destruct (get_null_occupant _ _ _ Hget) as [_ [Hr Hc]].
  unfold get, read, at_ in Hget.
  destruct (Z.ltb_spec r 0); [lia|].
  destruct (nth_error b (Z.to_nat r)) as [row|] eqn:Hrow; [|discriminate].
  destruct (Z.ltb_spec c 0); [lia|].
  destruct (nth_error row (Z.to_nat c)) as [[x|]|] eqn:Hcell; try discriminate.
  clear Hget; unfold set_cell; revert Hrow.
  generalize (Z.to_nat r) as n.
  induction b as [|rw b IH]; intros [|n] Hn; simpl in Hn; try discriminate.
  - injection Hn as ->; cbn [modify_nth].
    rewrite !count_pieces_cons.
    rewrite (count_row_modify p q _ row (Z.to_nat c) eq_refl Hcell); lia.
  - cbn [modify_nth]; rewrite !count_pieces_cons, (IH n Hn); lia.
Qed.

(** What a drop that changes the state does to the pieces: the mover gets
    exactly one more piece, the other player none. *)
Theorem dropPiece_adds_one_piece (gs gs' : GameState) (col : Z) :
  dropPiece gs col = Some gs' -> gs' <> gs ->
  count_pieces (board gs') (currentPlayer gs) =
    S (count_pieces (board gs) (currentPlayer gs)) /\
  count_pieces (board gs') (other (currentPlayer gs)) =
    count_pieces (board gs) (other (currentPlayer gs)).
Proof.
  intros Hdrop Hne.
  apply dropPiece_cases in Hdrop as [->|[_ [r [wc Hd]]]]; [congruence|].
  cbv zeta in Hd; destruct Hd as [_ [Hnull [_ [_ ->]]]]; simpl.
  rewrite !count_pieces_set_cell by exact Hnull.
  unfold piece_delta, other; destruct (currentPlayer gs); simpl; lia.
Qed.

Lemma dropPiece_adds_one_piece_witness :
  count_pieces (board (after [3; 4])) P2 =
    S (count_pieces (board (after [3])) P2) /\
  count_pieces (board (after [3; 4])) (other P2) =
    count_pieces (board (after [3])) (other P2).
Proof.
  apply (dropPiece_adds_one_piece (after [3]) (after [3; 4]) 4).
  - reflexivity.
  - vm_compute; congruence.
Defined.

Lemma count_inv_reachable (gs : GameState) :
  reachable gs ->
  count_pieces (board gs) P1 = (count_pieces (board gs) P2 + expected_lead gs)%nat.
Proof.
  induction 1 as [|gs col gs' Hreach IH Hdrop|gs Hreach IH];
    [reflexivity| |reflexivity].
  apply dropPiece_cases in Hdrop as [->|[Ho [r [wc Hd]]]]; [exact IH|].
  cbv zeta in Hd; destruct Hd as [_ [Hnull [_ [_ ->]]]].
  unfold expected_lead in *; simpl.
  rewrite !count_pieces_set_cell by exact Hnull.
  rewrite Ho in IH.
  unfold piece_delta, other.
  destruct (currentPlayer gs), (0 <? length wc)%nat, (forallb _ _);
    simpl in *; lia.
Qed.

(** Turns alternate: player 1 never has fewer pieces than player 2 nor more
    than one piece more, and in a running game it is player 1's turn exactly
    when both have the same number of pieces. *)
Theorem reachable_piece_balance (gs : GameState) :
  reachable gs ->
  (count_pieces (board gs) P1 = count_pieces (board gs) P2 \/
   count_pieces (board gs) P1 = S (count_pieces (board gs) P2)) /\
  (gameOver gs = false ->
   (currentPlayer gs = P1 <->
    count_pieces (board gs) P1 = count_pieces (board gs) P2)).
Proof.
  intros Hreach; pose proof (count_inv_reachable gs Hreach) as H.
  unfold expected_lead in H.
  destruct (gameOver gs), (currentPlayer gs); split; try lia;
    intros; split; intros; try congruence; lia.
Qed.

Lemma reachable_piece_balance_witness :
  (count_pieces (board drawn_game) P1 = count_pieces (board drawn_game) P2 \/
   count_pieces (board drawn_game) P1 = S (count_pieces (board drawn_game) P2)) /\
  (gameOver drawn_game = false ->
   (currentPlayer drawn_game = P1 <->
    count_pieces (board drawn_game) P1 = count_pieces (board drawn_game) P2)).
Proof.
  apply reachable_piece_balance, after_reachable; vm_compute; congruence.
Defined.

(** In every reachable state, the column button is enabled exactly when a
    click on it changes the game, for every integer column. *)
Theorem canDropInColumn_iff_drop_changes (gs : GameState) (col : Z) :
  reachable gs ->
  (canDropInColumn gs col = Some true <->
   exists gs', dropPiece gs col = Some gs' /\ gs' <> gs).
Proof.
  intros Hreach.
  destruct (engine_inv_reachable gs Hreach) as [Hwf [Hgrav _]].
  unfold canDropInColumn, dropPiece.
  destruct (gameOver gs) eqn:Ho; cbn [negb].
  { split; [discriminate|intros [gs' [E N]]; congruence]. }
  destruct (wf_get (board gs) 0 col Hwf) as [row [_ Hget]];
    [unfold ROWS; lia|].
  rewrite Hget.
  destruct (jsval_eqb (read row col) Null) eqn:E.
  - apply jsval_eqb_null in E; rewrite E in Hget.
    split; [intros _|reflexivity].
    destruct (scan_finds gs (board gs) col (Z.to_nat ROWS) (ROWS - 1) Hwf)
      as [r [Hr [Hnull [_ Hscan]]]]; try (unfold ROWS; lia).
    { exists 0; split; [unfold ROWS; lia|exact Hget]. }
    destruct (commit_some gs (set_cell (board gs) r col (Some (currentPlayer gs)))
                r col (set_cell_wf _ _ _ _ Hwf)) as [gs' Hc].
    exists gs'; rewrite Hscan, Hc; split; [reflexivity|].
    apply commit_board in Hc; intros Heq.
    assert (Hb : board gs' = board gs) by congruence.
    rewrite Hc in Hb.
    destruct (get_null_occupant _ _ _ Hnull) as [_ [Hr0 Hc0]].
    pose proof (get_set_cell (board gs) r col (Some (currentPlayer gs)) r col
                  Hr0 Hc0 Hnull) as Hs.
    rewrite Hb, !Z.eqb_refl, Hnull in Hs; discriminate.
  - split; [discriminate|intros [gs' [Hs Hne]]; exfalso; apply Hne].
    rewrite scan_no_null in Hs; [congruence|exact Hwf|unfold ROWS; lia|].
    intros r Hr Hnull.
    destruct (Z.eq_dec r 0) as [->|Hr0].
    { rewrite Hget in Hnull; injection Hnull as Hn; rewrite Hn in E;
        discriminate. }
    pose proof (get_null_in_bounds _ _ _ Hwf Hnull) as Hb.
    destruct (get_null_occupant _ _ _ Hnull) as [Hocc _].
    assert (Htop : occupant (board gs) 0 col <> None).
    { intros Hn.
      rewrite get_occupant, Hn in Hget; [|exact Hwf|].
      - injection Hget as Hg; rewrite <- Hg in E; discriminate.
      - unfold in_bounds in *; rewrite !andb_true_iff, !Z.leb_le, !Z.ltb_lt in *.
        unfold ROWS in *; lia. }
    apply (Hgrav 0 r col) in Htop; [contradiction|lia|].
    unfold in_bounds in Hb; rewrite !andb_true_iff, !Z.leb_le, !Z.ltb_lt in Hb.
    lia.
Qed.

Lemma canDropInColumn_iff_drop_changes_witness :
  (canDropInColumn column0_full 0 = Some true <->
   exists gs', dropPiece column0_full 0 = Some gs' /\ gs' <> column0_full).
Proof.
  apply canDropInColumn_iff_drop_changes, after_reachable; vm_compute;
    congruence.
Defined.
